(** * multinet: a net.Listener that aggregates several net.Listeners

    Shallow embedding of [multinet/listener.go].

    Modelling choices.
    - An underlying [net.Listener] is an interface value whose methods may
      do anything.  It is modelled as a record of oracles: each method is a
      function of the history of calls made so far on the underlying
      listeners (the [trace]), so a listener may answer differently after
      it has been closed, after a deadline was set, and so on.  Methods of
      underlying listeners are assumed to return (they do not panic); only
      [Accept] may block, which its oracle signals with [None].
    - The [Listener] struct is the record [World]: its fields, the state of
      the worker goroutines started by [Accept], and the trace.
    - The exported methods are run by one calling goroutine.  The worker
      goroutines run concurrently with it: wherever the caller is about to
      call into an underlying listener, or is parked ([select], [wg.Wait]),
      a schedule says which worker steps happen there.  Theorems quantify
      over all schedules.
    - A [select] with several ready cases picks one at random in Go: the
      pick is a parameter. *)

From Stdlib Require Import String.
From stdpp Require Import base list strings.

(** ** Data *)

Definition error := string.
Definition Time := Z.
Definition Conn := nat.

(** [net.Addr]: the results of its two methods. *)
Record NetAddr := mkNetAddr {
  addr_Network : string;
  addr_String : string
}.

(** [type accept struct { c net.Conn; err error }] *)
Record accept := mkAccept {
  c : option Conn;
  err : option error
}.

(** Calls made on the underlying listeners, with what they returned, and
    the two synchronisation actions of [Close]. *)
Inductive Event :=
| EvAccept (k : nat) (a : accept)
| EvClose (k : nat) (r : option error)
| EvSetDeadline (k : nat) (t : Time) (r : option error)
| EvCancel
| EvWait.

(** An underlying [net.Listener].  [ln_SetDeadline] is [None] when the
    dynamic type has no [SetDeadline(time.Time) error] method, i.e. when the
    type assertion [ln.(deadlineListener)] fails. *)
Record NetListener := mkNetListener {
  ln_type : string;
  ln_Accept : list Event -> option accept;
  ln_Close : list Event -> option error;
  ln_Addr : list Event -> NetAddr;
  ln_SetDeadline : option (Time -> list Event -> option error)
}.

(** Program points of the goroutine running [l.accept(ln)]. *)
Inductive WorkerPC :=
| WCall
| WCheck (a : accept)
| WSend (a : accept)
| WDone.

(** [type Listener struct]; [workers] holds one entry per goroutine
    started by [Accept], in the order of [ls]. *)
Record World := mkWorld {
  ls : list NetListener;
  acceptOnce : bool;
  closeOnce : bool;
  wg : nat;
  doneC : bool;
  acceptC : list accept;
  workers : list WorkerPC;
  trace : list Event
}.

Definition set_acceptOnce (b : bool) (w : World) : World :=
  mkWorld (ls w) b (closeOnce w) (wg w) (doneC w) (acceptC w) (workers w) (trace w).
Definition set_closeOnce (b : bool) (w : World) : World :=
  mkWorld (ls w) (acceptOnce w) b (wg w) (doneC w) (acceptC w) (workers w) (trace w).
Definition set_wg (n : nat) (w : World) : World :=
  mkWorld (ls w) (acceptOnce w) (closeOnce w) n (doneC w) (acceptC w) (workers w) (trace w).
Definition set_doneC (b : bool) (w : World) : World :=
  mkWorld (ls w) (acceptOnce w) (closeOnce w) (wg w) b (acceptC w) (workers w) (trace w).
Definition set_acceptC (q : list accept) (w : World) : World :=
  mkWorld (ls w) (acceptOnce w) (closeOnce w) (wg w) (doneC w) q (workers w) (trace w).
Definition set_workers (ws : list WorkerPC) (w : World) : World :=
  mkWorld (ls w) (acceptOnce w) (closeOnce w) (wg w) (doneC w) (acceptC w) ws (trace w).
Definition log (e : Event) (w : World) : World :=
  mkWorld (ls w) (acceptOnce w) (closeOnce w) (wg w) (doneC w) (acceptC w) (workers w)
    (trace w ++ [e]).

(** A schedule: which worker moves next, and what its [select] picks when
    both of its cases are ready. *)
Definition Sched := list (nat * bool).

(** ** Composite address *)

(** [strings.Join] of the Go standard library. *)
Fixpoint strings_Join (elems : list string) (sep : string) : string :=
  match elems with
  | [] => ""
  | [s] => s
  | s :: rest => s +:+ sep +:+ strings_Join rest sep
  end.

(** [type Addr []net.Addr] *)
Definition Addr := list NetAddr.

(** [func (a Addr) join(fn func(addr net.Addr) string) string] *)
Definition join (a : Addr) (fn : NetAddr -> string) : string :=
  let ss := fold_left (fun ss addr => ss ++ [fn addr]) a [] in
  strings_Join ss ",".

(** [func (a Addr) Network() string] *)
Definition Addr_Network (a : Addr) : string := join a addr_Network.

(** [func (a Addr) String() string] *)
Definition Addr_String (a : Addr) : string := join a addr_String.

(** ** Listener *)

(** [func Listen(ls ...net.Listener) *Listener] *)
Definition Listen (lns : list NetListener) : World :=
  mkWorld lns false false 0 false [] [] [].

Definition errNoListeners : error := "multinet: no net.Listeners added to Listener".
Definition errClosed : error := "multinet: use of closed network connection".
Definition errNoSetDeadline (ln : NetListener) : error :=
  "multinet: net.Listener " +:+ ln_type ln +:+ " does not have a SetDeadline method".

(** [defer l.wg.Done()] when worker [k] leaves [l.accept]. *)
Definition worker_exit (k : nat) (w : World) : World :=
  set_wg (wg w - 1) (set_workers (<[k := WDone]> (workers w)) w).

(** One step of the goroutine of listener [k]:
    [func (l *Listener) accept(ln net.Listener)]. *)
Definition worker_step (s : nat * bool) (w : World) : World :=
  let (k, pick) := s in
  match workers w !! k, ls w !! k with
  | Some WCall, Some ln =>
      (* c, err := ln.Accept() *)
      match ln_Accept ln (trace w) with
      | None => w
      | Some a => set_workers (<[k := WCheck a]> (workers w)) (log (EvAccept k a) w)
      end
  | Some (WCheck a), Some _ =>
      (* select { case <-l.doneC: return; default: } *)
      if doneC w then worker_exit k w
      else set_workers (<[k := WSend a]> (workers w)) w
  | Some (WSend a), Some _ =>
      (* select { case <-l.doneC: return; case l.acceptC <- accept{...}: } *)
      let room := bool_decide (length (acceptC w) < length (ls w)) in
      let send := set_workers (<[k := WCall]> (workers w))
                    (set_acceptC (acceptC w ++ [a]) w) in
      match doneC w, room with
      | true, true => if pick then send else worker_exit k w
      | true, false => worker_exit k w
      | false, true => send
      | false, false => w
      end
  | _, _ => w
  end.

Definition run_workers (sch : Sched) (w : World) : World :=
  fold_left (fun w s => worker_step s w) sch w.

(** Result of a call that may park the caller. *)
Inductive Outcome (A : Type) :=
| Returned (r : A)
| Blocked.
Arguments Returned {A} r.
Arguments Blocked {A}.

(** [l.acceptOnce.Do(func() {...})]: [l.wg.Add(len(l.ls))] and one
    goroutine per listener. *)
Definition acceptOnce_Do (w : World) : World :=
  if acceptOnce w then w
  else set_acceptOnce true
         (set_workers (map (fun _ => WCall) (ls w))
            (set_wg (wg w + length (ls w)) w)).

(** The [select] of [Accept]; while no case is ready the workers of the
    schedule move. *)
Fixpoint Accept_select (pick : bool) (sch : Sched) (w : World)
  : World * Outcome (option Conn * option error) :=
  match acceptC w, doneC w with
  | a :: rest, false => (set_acceptC rest w, Returned (c a, err a))
  | a :: rest, true =>
      if pick then (set_acceptC rest w, Returned (c a, err a))
      else (w, Returned (None, Some errClosed))
  | [], true => (w, Returned (None, Some errClosed))
  | [], false =>
      match sch with
      | [] => (w, Blocked)
      | s :: sch' => Accept_select pick sch' (worker_step s w)
      end
  end.

(** [func (l *Listener) Accept() (net.Conn, error)] *)
Definition Accept (pick : bool) (sch : Sched) (w : World)
  : World * Outcome (option Conn * option error) :=
  if bool_decide (length (ls w) = 0) then (w, Returned (None, Some errNoListeners))
  else Accept_select pick sch (acceptOnce_Do w).

(** [func (l *Listener) Addr() net.Addr] *)
Definition Listener_Addr (w : World) : Addr :=
  fold_left (fun addrs ln => addrs ++ [ln_Addr ln (trace w)]) (ls w) [].

(** First loop of [SetDeadline]: the type assertions.  [inl] is the early
    return with the error, [inr] the slice [dls] with the position of each
    listener. *)
Fixpoint assert_deadline (lns : list NetListener)
    (dls : list (Time -> list Event -> option error))
  : error + list (Time -> list Event -> option error) :=
  match lns with
  | [] => inr dls
  | ln :: rest =>
      match ln_SetDeadline ln with
      | None => inl (errNoSetDeadline ln)
      | Some dl => assert_deadline rest (dls ++ [dl])
      end
  end.

(** [if lerr != nil && err == nil { err = lerr }] *)
Definition first_err (lerr err0 : option error) : option error :=
  match lerr, err0 with
  | Some e, None => Some e
  | _, _ => err0
  end.

(** Second loop of [SetDeadline]; [sch k] are the worker steps that happen
    before the call on listener [k]. *)
Fixpoint apply_deadline (t : Time) (sch : nat -> Sched) (k : nat)
    (dls : list (Time -> list Event -> option error))
    (err0 : option error) (w : World) : World * option error :=
  match dls with
  | [] => (w, err0)
  | dl :: rest =>
      let w1 := run_workers (sch k) w in
      let lerr := dl t (trace w1) in
      apply_deadline t sch (S k) rest (first_err lerr err0) (log (EvSetDeadline k t lerr) w1)
  end.

(** [func (l *Listener) SetDeadline(t time.Time) error] *)
Definition SetDeadline (t : Time) (sch : nat -> Sched) (w : World)
  : World * option error :=
  match assert_deadline (ls w) [] with
  | inl e => (w, Some e)
  | inr dls => apply_deadline t sch 0 dls None w
  end.

(** The loop of [Close] over [l.ls]. *)
Fixpoint close_all (sch : nat -> Sched) (k : nat) (lns : list NetListener)
    (err0 : option error) (w : World) : World * option error :=
  match lns with
  | [] => (w, err0)
  | ln :: rest =>
      let w1 := run_workers (sch k) w in
      let lerr := ln_Close ln (trace w1) in
      close_all sch (S k) rest (first_err lerr err0) (log (EvClose k lerr) w1)
  end.

(** [l.wg.Wait()]: parked until the counter is zero; meanwhile the workers
    of the schedule move. *)
Fixpoint wg_Wait (fin : Sched) (w : World) : World * Outcome unit :=
  if bool_decide (wg w = 0) then (log EvWait w, Returned tt)
  else match fin with
       | [] => (w, Blocked)
       | s :: fin' => wg_Wait fin' (worker_step s w)
       end.

(** The function passed to [l.closeOnce.Do], without its deferred call. *)
Definition Close_body (sch : nat -> Sched) (w : World) : World * option error :=
  close_all sch 0 (ls w) None (log EvCancel (set_doneC true w)).

(** [func (l *Listener) Close() error].  [closeOnce] is set when [Do]
    returns, as [sync.Once] does. *)
Definition Close (sch : nat -> Sched) (fin : Sched) (w : World)
  : World * Outcome (option error) :=
  if closeOnce w then (w, Returned None)
  else
    let (w1, e) := Close_body sch w in
    match wg_Wait fin w1 with
    | (w2, Returned _) => (set_closeOnce true w2, Returned e)
    | (w2, Blocked) => (w2, Blocked)
    end.

(** ** Runs of a program that uses the Listener

    The calls a program makes on a [Listener], in order.  [OpWorkers] lets
    the worker goroutines move between two calls.  An [Accept] that is
    still parked when its schedule ends stays pending in its own goroutine
    and the run goes on; a [Close] that never returns ends the run. *)
Inductive Op :=
| OpAccept (pick : bool) (sch : Sched)
| OpAddr
| OpSetDeadline (t : Time) (sch : nat -> Sched)
| OpClose (sch : nat -> Sched) (fin : Sched)
| OpWorkers (sch : Sched).

Definition exec (o : Op) (w : World) : option World :=
  match o with
  | OpAccept pick sch => Some (fst (Accept pick sch w))
  | OpAddr => Some w
  | OpSetDeadline t sch => Some (fst (SetDeadline t sch w))
  | OpClose sch fin =>
      match Close sch fin w with
      | (w', Returned _) => Some w'
      | (_, Blocked) => None
      end
  | OpWorkers sch => Some (run_workers sch w)
  end.

Fixpoint run (ops : list Op) (w : World) : option World :=
  match ops with
  | [] => Some w
  | o :: rest =>
      match exec o w with
      | Some w' => run rest w'
      | None => None
      end
  end.

(** ** Vocabulary of the statements *)

(** The first non-nil error of a list of results. *)
Fixpoint first_error (rs : list (option error)) : option error :=
  match rs with
  | [] => None
  | Some e :: _ => Some e
  | None :: rest => first_error rest
  end.

(** The calls to [Close] of underlying listeners in a trace. *)
Fixpoint closes (tr : list Event) : list (nat * option error) :=
  match tr with
  | [] => []
  | EvClose k r :: rest => (k, r) :: closes rest
  | _ :: rest => closes rest
  end.

(** The calls to [SetDeadline] of underlying listeners in a trace. *)
Fixpoint deadlines (tr : list Event) : list (nat * Time * option error) :=
  match tr with
  | [] => []
  | EvSetDeadline k t r :: rest => (k, t, r) :: deadlines rest
  | _ :: rest => deadlines rest
  end.

(** What the calling goroutine did in a trace: everything but the
    workers' calls to [Accept]. *)
Fixpoint caller_events (tr : list Event) : list Event :=
  match tr with
  | [] => []
  | EvAccept _ _ :: rest => caller_events rest
  | e :: rest => e :: caller_events rest
  end.

(** Results numbered from [k]. *)
Fixpoint numbered {A : Type} (k : nat) (rs : list A) : list (nat * A) :=
  match rs with
  | [] => []
  | r :: rest => (k, r) :: numbered (S k) rest
  end.

Definition live (pc : WorkerPC) : bool :=
  match pc with WDone => false | _ => true end.

Definition sending (pc : WorkerPC) : bool :=
  match pc with WSend _ => true | _ => false end.

Fixpoint live_count (ws : list WorkerPC) : nat :=
  match ws with
  | [] => 0
  | pc :: rest => (if live pc then 1 else 0) + live_count rest
  end.

(** What holds of every [Listener] a program can reach. *)
Record Inv (w : World) : Prop := mkInv {
  inv_wg : wg w = live_count (workers w);
  inv_unstarted : acceptOnce w = false -> workers w = [];
  inv_closed : closeOnce w = true ->
               doneC w = true /\ Forall (fun pc => sending pc = false) (workers w);
  inv_len : length (workers w) <= length (ls w)
}.

(** The error a first-error-wins loop returns when it starts from [e0] and
    the calls answer [rs]. *)
Definition first_error_from (e0 : option error) (rs : list (option error))
  : option error :=
  match e0 with
  | Some _ => e0
  | None => first_error rs
  end.

(** The fields no caller-side loop and no worker changes. *)
Record same_flags (w w' : World) : Prop := mkSameFlags {
  sf_ls : ls w' = ls w;
  sf_acceptOnce : acceptOnce w' = acceptOnce w;
  sf_closeOnce : closeOnce w' = closeOnce w;
  sf_doneC : doneC w' = doneC w
}.

(** A schedule that gives every worker two steps, in the order of [ls]. *)
Definition two_steps_each (n : nat) : Sched :=
  flat_map (fun k => [(k, false); (k, false)]) (seq 0 n).

(** Listener [k] answers a pending or later [Accept] once it has been
    closed, as a [net.Listener] must. *)
Definition Close_unblocks_Accept (lns : list NetListener) : Prop :=
  forall k ln tr r,
    lns !! k = Some ln -> EvClose k r ∈ tr -> is_Some (ln_Accept ln tr).

(** After the loop of [Close]: cancelled, and every listener closed. *)
Definition closing (lns : list NetListener) (w : World) : Prop :=
  ls w = lns /\ doneC w = true
  /\ length (workers w) <= length lns
  /\ forall k, k < length lns -> exists r, EvClose k r ∈ trace w.

(** A closed Listener whose result channel has been emptied. *)
Definition drained (w : World) : Prop :=
  Inv w /\ closeOnce w = true /\ acceptC w = [].

(** How many times [Close] was called on listener [k] in a trace. *)
Fixpoint close_count (k : nat) (tr : list Event) : nat :=
  match tr with
  | [] => 0
  | EvClose j _ :: rest => (if decide (j = k) then 1 else 0) + close_count k rest
  | _ :: rest => close_count k rest
  end.

(** ** Listeners of the tests

    [tcpListener]: accepts connections until some listener of the set has
    been closed, then fails; supports deadlines.  [errListener e]: the
    test double of [listener_test.go], whose [Close] returns [e] and which
    has no [SetDeadline] method. *)
Definition is_close (e : Event) : bool :=
  match e with EvClose _ _ => true | _ => false end.

Definition tcpListener (a : string) : NetListener :=
  mkNetListener "*net.TCPListener"
    (fun tr => if existsb is_close tr
               then Some (mkAccept None (Some "use of closed network connection"))
               else Some (mkAccept (Some (length tr)) None))
    (fun _ => None)
    (fun _ => mkNetAddr "tcp" a)
    (Some (fun _ _ => None)).

Definition unixListener (a : string) : NetListener :=
  mkNetListener "*net.UnixListener"
    (fun tr => if existsb is_close tr
               then Some (mkAccept None (Some "use of closed network connection"))
               else Some (mkAccept (Some (length tr)) None))
    (fun _ => None)
    (fun _ => mkNetAddr "unix" a)
    (Some (fun _ _ => Some "set deadline: timeout")).

Definition errListener (e : option error) : NetListener :=
  mkNetListener "*multinet_test.errListener"
    (fun _ => None)
    (fun _ => e)
    (fun _ => mkNetAddr "err" "err")
    None.

Definition idle : nat -> Sched := fun _ => [].

(** The Listener of the close test of [listener_test.go]. *)
Definition closeTest : World :=
  Listen [tcpListener "a"; errListener (Some "some error");
          errListener (Some "another error")].

(** Two listeners, one [Accept] served by the first: both workers are
    running. *)
Definition pair : list NetListener := [tcpListener "a"; tcpListener "b"].

Definition serve : list Op := [OpAccept true [(0, true); (0, true); (0, true)]].

Definition served : World :=
  (Accept true [(0, true); (0, true); (0, true)] (Listen pair)).1.

(** The same, with two more connections accepted by the workers and left
    in the result channel. *)
Definition backlog : World :=
  run_workers [(0, true); (0, true); (0, true); (1, true); (1, true); (1, true)] served.

(** ** Vocabulary of the further properties *)

(** [a] is something [Accept] of an underlying listener returned. *)
Definition from_listener (lns : list NetListener) (a : accept) : Prop :=
  exists k ln tr, lns !! k = Some ln /\ ln_Accept ln tr = Some a.

(** The result a worker holds between its call to [ln.Accept] and the
    send on [l.acceptC]. *)
Definition carried (pc : WorkerPC) : option accept :=
  match pc with
  | WCheck a | WSend a => Some a
  | _ => None
  end.

(** Every result in flight came from an underlying listener. *)
Definition genuine (w : World) : Prop :=
  Forall (from_listener (ls w)) (acceptC w)
  /\ Forall (fun pc => forall a, carried pc = Some a -> from_listener (ls w) a)
       (workers w).

(** Once [acceptOnce] has run there is one worker per listener. *)
Definition started (w : World) : Prop :=
  acceptOnce w = true -> length (workers w) = length (ls w).

(** After [Close] has returned, with [q0] left in the result channel. *)
Definition closed_with (q0 : list accept) (w : World) : Prop :=
  Inv w /\ closeOnce w = true /\ acceptC w `suffix_of` q0.

(** ** Worker steps *)

Definition accept_event (e : Event) : Prop :=
  match e with EvAccept _ _ => True | _ => False end.

(** What a caller-side loop interleaved with workers leaves alone. *)
Record frame (w w' : World) : Prop := mkFrame {
  fr_ls : ls w' = ls w;
  fr_acceptOnce : acceptOnce w' = acceptOnce w;
  fr_closeOnce : closeOnce w' = closeOnce w;
  fr_doneC : doneC w' = doneC w;
  fr_trace : exists evs, trace w' = trace w ++ evs /\ Forall accept_event evs
}.

Ltac unfold_worker_step s w :=
  unfold worker_step; destruct s as [k pick];
  destruct (workers w !! k) as [[|a|a|]|] eqn:Hpc;
  destruct (ls w !! k) as [ln|] eqn:Hln.

Lemma frame_refl w : frame w w.
Proof.
  split; try reflexivity. exists []. split; [by rewrite app_nil_r | constructor].
Qed.

Lemma frame_trans w1 w2 w3 : frame w1 w2 -> frame w2 w3 -> frame w1 w3.
Proof.
  intros [a1 b1 c1 d1 (e1 & t1 & f1)] [a2 b2 c2 d2 (e2 & t2 & f2)].
  split; try congruence.
  exists (e1 ++ e2). split.
  - rewrite t2, t1. by rewrite app_assoc.
  - by apply Forall_app.
Qed.

Lemma accept_events_caller evs : Forall accept_event evs -> caller_events evs = [].
Proof.
  induction 1 as [|e evs He _ IH]; [done|]. by destruct e.
Qed.

Lemma accept_events_closes evs : Forall accept_event evs -> closes evs = [].
Proof.
  induction 1 as [|e evs He _ IH]; [done|]. by destruct e.
Qed.

Lemma accept_events_deadlines evs : Forall accept_event evs -> deadlines evs = [].
Proof.
  induction 1 as [|e evs He _ IH]; [done|]. by destruct e.
Qed.

Lemma caller_events_app t1 t2 :
  caller_events (t1 ++ t2) = caller_events t1 ++ caller_events t2.
Proof.
  induction t1 as [|e t1 IH]; [done|]. destruct e; simpl; by rewrite ?IH.
Qed.

Lemma closes_app t1 t2 : closes (t1 ++ t2) = closes t1 ++ closes t2.
Proof.
  induction t1 as [|e t1 IH]; [done|]. destruct e; simpl; by rewrite ?IH.
Qed.

Lemma deadlines_app t1 t2 : deadlines (t1 ++ t2) = deadlines t1 ++ deadlines t2.
Proof.
  induction t1 as [|e t1 IH]; [done|]. destruct e; simpl; by rewrite ?IH.
Qed.

Lemma worker_step_frame s w : frame w (worker_step s w).
Proof.
  unfold_worker_step s w; try apply frame_refl.
  - destruct (ln_Accept ln (trace w)) as [a|]; [|apply frame_refl].
    split; try reflexivity. exists [EvAccept k a]. split; [done|].
    by repeat constructor.
  - destruct (doneC w); split; try reflexivity;
      exists []; (split; [by rewrite app_nil_r | constructor]).
  - destruct (doneC w), (bool_decide _), pick; try apply frame_refl;
      split; try reflexivity;
      exists []; (split; [by rewrite app_nil_r | constructor]).
Qed.

Lemma run_workers_frame sch w : frame w (run_workers sch w).
Proof.
  revert w. induction sch as [|s sch IH]; intros w; [apply frame_refl|].
  simpl. eapply frame_trans; [apply worker_step_frame | apply IH].
Qed.

Lemma live_count_insert ws k pc pc' :
  ws !! k = Some pc ->
  live_count (<[k := pc']> ws) + (if live pc then 1 else 0)
  = live_count ws + (if live pc' then 1 else 0).
Proof.
  revert k. induction ws as [|x ws IH]; intros k Hk; [done|].
  destruct k as [|k]; simpl in *.
  - injection Hk as ->. lia.
  - specialize (IH k Hk). lia.
Qed.

Lemma live_count_zero ws : live_count ws = 0 -> Forall (fun pc => pc = WDone) ws.
Proof.
  induction ws as [|pc ws IH]; intros H; [constructor|].
  simpl in H. destruct pc; simpl in H; try lia.
  constructor; [done | apply IH; lia].
Qed.

Lemma live_count_done ws : Forall (fun pc => pc = WDone) ws -> live_count ws = 0.
Proof.
  induction 1 as [|pc ws -> _ IH]; [done | simpl; lia].
Qed.

Lemma lookup_not_nil {A} (l : list A) k x : l !! k = Some x -> l <> [].
Proof. by destruct l. Qed.

Lemma worker_step_Inv s w : Inv w -> Inv (worker_step s w).
Proof.
  intros [Hwg Hun Hcl Hlen].
  assert (Hlive : forall k pc, workers w !! k = Some pc -> acceptOnce w = true).
  { intros k pc Hk. destruct (acceptOnce w) eqn:E; [done|].
    rewrite (Hun eq_refl) in Hk. done. }
  unfold_worker_step s w; try (by split).
  - destruct (ln_Accept ln (trace w)) as [a|]; [|by split].
    split; simpl.
    + pose proof (live_count_insert _ _ _ (WCheck a) Hpc) as E. simpl in E. lia.
    + intros E. rewrite (Hlive _ _ Hpc) in E. done.
    + intros E. destruct (Hcl E) as [Hd Hs]. split; [done|].
      by apply Forall_insert.
    + by rewrite length_insert.
  - destruct (doneC w) eqn:Hd; split; simpl.
    + pose proof (live_count_insert _ _ _ WDone Hpc) as E. simpl in E. lia.
    + intros E. rewrite (Hlive _ _ Hpc) in E. done.
    + intros E. destruct (Hcl E) as [_ Hs]. split; [done|]. by apply Forall_insert.
    + by rewrite length_insert.
    + pose proof (live_count_insert _ _ _ (WSend a) Hpc) as E. simpl in E. lia.
    + intros E. rewrite (Hlive _ _ Hpc) in E. done.
    + intros E. destruct (Hcl E) as [Hd' _]. congruence.
    + by rewrite length_insert.
  - assert (Hns : closeOnce w = true -> False).
    { intros E. destruct (Hcl E) as [_ Hs].
      rewrite Forall_lookup in Hs. specialize (Hs _ _ Hpc). done. }
    destruct (doneC w) eqn:Hd, (bool_decide _), pick; try (by split);
      split; simpl; try (intros E; by destruct (Hns E));
      try (intros E; rewrite (Hlive _ _ Hpc) in E; done).
    all: first
      [ by rewrite length_insert
      | pose proof (live_count_insert _ _ _ WDone Hpc) as E; simpl in E; lia
      | pose proof (live_count_insert _ _ _ WCall Hpc) as E; simpl in E; lia ].
Qed.

Lemma run_workers_Inv sch w : Inv w -> Inv (run_workers sch w).
Proof.
  revert w. induction sch as [|s sch IH]; intros w H; [done|].
  simpl. apply IH. by apply worker_step_Inv.
Qed.

(** ** The loops of the caller *)

Lemma frame_same_flags w w' : frame w w' -> same_flags w w'.
Proof. intros [? ? ? ? _]. by split. Qed.

Lemma same_flags_trans w1 w2 w3 :
  same_flags w1 w2 -> same_flags w2 w3 -> same_flags w1 w3.
Proof. intros [] []. split; congruence. Qed.

Lemma log_Inv e w : Inv w -> Inv (log e w).
Proof. intros [? ? ? ?]. by split. Qed.

Lemma log_same_flags e w : same_flags w (log e w).
Proof. by split. Qed.

Lemma first_error_from_step r e0 rs :
  first_error_from (first_err r e0) rs = first_error_from e0 (r :: rs).
Proof. by destruct r, e0. Qed.

Lemma close_all_spec sch lns : forall k e0 w,
  exists evs rs,
    trace (close_all sch k lns e0 w).1 = trace w ++ evs
    /\ closes evs = numbered k rs
    /\ caller_events evs = map (fun p => EvClose p.1 p.2) (numbered k rs)
    /\ Forall2 (fun ln r => exists tr, r = ln_Close ln tr) lns rs
    /\ (close_all sch k lns e0 w).2 = first_error_from e0 rs
    /\ same_flags w (close_all sch k lns e0 w).1
    /\ (Inv w -> Inv (close_all sch k lns e0 w).1).
Proof.
  induction lns as [|ln lns IH]; intros k e0 w; simpl.
  - exists [], []. rewrite app_nil_r. split_and!; try done. by destruct e0.
  - set (w1 := run_workers (sch k) w).
    set (r := ln_Close ln (trace w1)).
    destruct (IH (S k) (first_err r e0) (log (EvClose k r) w1))
      as (evs & rs & Ht & Hc & Hce & Hf & He & Hs & Hi).
    destruct (run_workers_frame (sch k) w) as [F1 F2 F3 F4 (ev0 & Ht0 & Hacc)].
    fold w1 in F1, F2, F3, F4, Ht0.
    exists (ev0 ++ EvClose k r :: evs), (r :: rs). split_and!.
    + rewrite Ht. simpl. rewrite Ht0. by rewrite <- !app_assoc.
    + rewrite closes_app, (accept_events_closes _ Hacc). simpl. by rewrite Hc.
    + rewrite caller_events_app, (accept_events_caller _ Hacc). simpl.
      by rewrite Hce.
    + constructor; [by exists (trace w1) | done].
    + rewrite He. apply first_error_from_step.
    + destruct Hs. split; simpl in *; congruence.
    + intros H. apply Hi, log_Inv, run_workers_Inv, H.
Qed.

Lemma apply_deadline_spec t sch dls : forall k e0 w,
  exists evs rs,
    trace (apply_deadline t sch k dls e0 w).1 = trace w ++ evs
    /\ deadlines evs = map (fun p => (p.1, t, p.2)) (numbered k rs)
    /\ caller_events evs = map (fun p => EvSetDeadline p.1 t p.2) (numbered k rs)
    /\ Forall2 (fun dl r => exists tr, r = dl t tr) dls rs
    /\ (apply_deadline t sch k dls e0 w).2 = first_error_from e0 rs
    /\ same_flags w (apply_deadline t sch k dls e0 w).1
    /\ (Inv w -> Inv (apply_deadline t sch k dls e0 w).1).
Proof.
  induction dls as [|dl dls IH]; intros k e0 w; simpl.
  - exists [], []. rewrite app_nil_r. split_and!; try done. by destruct e0.
  - set (w1 := run_workers (sch k) w).
    set (r := dl t (trace w1)).
    destruct (IH (S k) (first_err r e0) (log (EvSetDeadline k t r) w1))
      as (evs & rs & Ht & Hc & Hce & Hf & He & Hs & Hi).
    destruct (run_workers_frame (sch k) w) as [F1 F2 F3 F4 (ev0 & Ht0 & Hacc)].
    fold w1 in F1, F2, F3, F4, Ht0.
    exists (ev0 ++ EvSetDeadline k t r :: evs), (r :: rs). split_and!.
    + rewrite Ht. simpl. rewrite Ht0. by rewrite <- !app_assoc.
    + rewrite deadlines_app, (accept_events_deadlines _ Hacc). simpl.
      by rewrite Hc.
    + rewrite caller_events_app, (accept_events_caller _ Hacc). simpl.
      by rewrite Hce.
    + constructor; [by exists (trace w1) | done].
    + rewrite He. apply first_error_from_step.
    + destruct Hs. split; simpl in *; congruence.
    + intros H. apply Hi, log_Inv, run_workers_Inv, H.
Qed.

Lemma assert_deadline_inr lns : forall acc dls,
  assert_deadline lns acc = inr dls ->
  exists dls', dls = acc ++ dls'
    /\ Forall2 (fun ln dl => ln_SetDeadline ln = Some dl) lns dls'.
Proof.
  induction lns as [|ln lns IH]; intros acc dls H; simpl in H.
  - injection H as <-. exists []. split; [by rewrite app_nil_r | constructor].
  - destruct (ln_SetDeadline ln) as [dl|] eqn:E; [|done].
    destruct (IH _ _ H) as (dls' & -> & Hf).
    exists (dl :: dls'). split; [by rewrite <- app_assoc | by constructor].
Qed.

Lemma assert_deadline_inl lns : forall acc e,
  assert_deadline lns acc = inl e ->
  exists pre ln post, lns = pre ++ ln :: post
    /\ Forall (fun l => is_Some (ln_SetDeadline l)) pre
    /\ ln_SetDeadline ln = None /\ e = errNoSetDeadline ln.
Proof.
  induction lns as [|ln lns IH]; intros acc e H; simpl in H; [done|].
  destruct (ln_SetDeadline ln) as [dl|] eqn:E.
  - destruct (IH _ _ H) as (pre & l & post & -> & Hp & Hn & ->).
    exists (ln :: pre), l, post. split_and!; try done.
    constructor; [by rewrite E | done].
  - injection H as <-. exists [], ln, lns. split_and!; try done.
Qed.

(** Whatever worker steps and logging preserve, the loops preserve. *)
Section Preserved.
Variable P : World -> Prop.
Hypothesis P_step : forall s w, P w -> P (worker_step s w).
Hypothesis P_log : forall e w, P w -> P (log e w).

Lemma run_workers_pres sch w : P w -> P (run_workers sch w).
Proof using P_step.
  revert w. induction sch as [|s sch IH]; intros w H; [done|].
  simpl. by apply IH, P_step.
Qed.

Lemma close_all_pres sch lns : forall k e0 w,
  P w -> P (close_all sch k lns e0 w).1.
Proof using P_step P_log.
  induction lns as [|ln lns IH]; intros k e0 w H; [done|].
  simpl. by apply IH, P_log, run_workers_pres.
Qed.

Lemma apply_deadline_pres t sch dls : forall k e0 w,
  P w -> P (apply_deadline t sch k dls e0 w).1.
Proof using P_step P_log.
  induction dls as [|dl dls IH]; intros k e0 w H; [done|].
  simpl. by apply IH, P_log, run_workers_pres.
Qed.

Lemma wg_Wait_pres fin : forall w, P w -> P (wg_Wait fin w).1.
Proof using P_step P_log.
  induction fin as [|s fin IH]; intros w H; simpl;
    destruct (bool_decide (wg w = 0)); simpl; auto.
Qed.
End Preserved.

Lemma wg_Wait_spec fin : forall w w' u,
  wg_Wait fin w = (w', Returned u) ->
  exists evs, trace w' = trace w ++ evs ++ [EvWait]
    /\ Forall accept_event evs /\ wg w' = 0 /\ same_flags w w'.
Proof.
  assert (Hnow : forall w, wg w = 0 ->
    exists evs, trace (log EvWait w) = trace w ++ evs ++ [EvWait]
      /\ Forall accept_event evs /\ wg (log EvWait w) = 0
      /\ same_flags w (log EvWait w)).
  { intros w E. exists []. split_and!; try done. }
  induction fin as [|s fin IH]; intros w w' u H; simpl in H;
    destruct (bool_decide (wg w = 0)) eqn:E.
  - injection H as <- _. apply Hnow. by apply bool_decide_eq_true_1 in E.
  - done.
  - injection H as <- _. apply Hnow. by apply bool_decide_eq_true_1 in E.
  - destruct (IH _ _ _ H) as (evs & Ht & Hacc & Hz & Hs).
    destruct (worker_step_frame s w) as [F1 F2 F3 F4 (ev0 & Ht0 & Hacc0)].
    exists (ev0 ++ evs). split_and!.
    + rewrite Ht, Ht0. by rewrite <- !app_assoc.
    + by apply Forall_app.
    + done.
    + destruct Hs. split; congruence.
Qed.

Lemma set_doneC_Inv w : Inv w -> Inv (set_doneC true w).
Proof.
  intros [H1 H2 H3 H4]. split; simpl; try done.
  intros E. split; [done | by apply H3].
Qed.

(** The first [Close]: what it logs, what it returns, and the state it
    leaves. *)
Lemma Close_first_spec sch fin w w' e :
  closeOnce w = false ->
  Close sch fin w = (w', Returned e) ->
  exists mid rs,
    trace w' = trace w ++ [EvCancel] ++ mid ++ [EvWait]
    /\ closes mid = numbered 0 rs
    /\ caller_events mid = map (fun p => EvClose p.1 p.2) (numbered 0 rs)
    /\ Forall2 (fun ln r => exists tr, r = ln_Close ln tr) (ls w) rs
    /\ e = first_error rs
    /\ wg w' = 0
    /\ ls w' = ls w /\ acceptOnce w' = acceptOnce w
    /\ closeOnce w' = true /\ doneC w' = true
    /\ (Inv w -> Inv w' /\ Forall (fun pc => pc = WDone) (workers w')).
Proof.
  intros Hc H. unfold Close in H. rewrite Hc in H.
  unfold Close_body in H.
  set (w0 := log EvCancel (set_doneC true w)) in H.
  simpl in H.
  destruct (close_all_spec sch (ls w) 0 None w0)
    as (evs & rs & Ht & Hcl & Hce & Hf & He & Hs & Hi).
  destruct (close_all sch 0 (ls w) None w0) as [w1 e1] eqn:Eb.
  simpl in Ht, He, Hs, Hi.
  destruct (wg_Wait fin w1) as [w2 [u|]] eqn:Ew; [|done].
  injection H as <- <-.
  destruct (wg_Wait_spec _ _ _ _ Ew) as (ev2 & Ht2 & Hacc2 & Hz & Hs2).
  exists (evs ++ ev2), rs. split_and!.
  - simpl. rewrite Ht2, Ht. subst w0. simpl. by rewrite <- !app_assoc.
  - rewrite closes_app, (accept_events_closes _ Hacc2). by rewrite app_nil_r.
  - rewrite caller_events_app, (accept_events_caller _ Hacc2).
    by rewrite app_nil_r.
  - done.
  - done.
  - done.
  - destruct Hs, Hs2. subst w0. simpl in *. congruence.
  - destruct Hs, Hs2. subst w0. simpl in *. congruence.
  - done.
  - destruct Hs, Hs2. subst w0. simpl in *. congruence.
  - intros HI.
    assert (HI2 : Inv w2).
    { pose proof (wg_Wait_pres Inv worker_step_Inv log_Inv fin w1) as Hp.
      rewrite Ew in Hp. apply Hp, Hi. subst w0. by apply log_Inv, set_doneC_Inv. }
    assert (Hd : Forall (fun pc => pc = WDone) (workers w2)).
    { apply live_count_zero. destruct HI2 as [<- _ _ _]. done. }
    split; [|done].
    destruct HI2 as [G1 G2 G3 G4]. split; simpl; try done.
    intros _. split.
    + destruct Hs, Hs2. subst w0. simpl in *. congruence.
    + eapply Forall_impl; [exact Hd|]. by intros pc ->.
Qed.

(** Later calls of [Close] find [closeOnce] set. *)
Lemma Close_again sch fin w :
  closeOnce w = true -> Close sch fin w = (w, Returned None).
Proof. intros H. unfold Close. by rewrite H. Qed.

(** ** Accept *)

Lemma live_count_spawn {A} (l : list A) :
  live_count (map (fun _ => WCall) l) = length l.
Proof. induction l as [|x l IH]; [done | simpl; by rewrite IH]. Qed.

Lemma acceptOnce_Do_Inv w : Inv w -> Inv (acceptOnce_Do w).
Proof.
  intros H. pose proof H as [H1 H2 H3 H4]. unfold acceptOnce_Do.
  destruct (acceptOnce w) eqn:E; [exact H|].
  split; simpl.
  - rewrite live_count_spawn, H1, (H2 eq_refl). done.
  - done.
  - intros Hc. destruct (H3 Hc) as [Hd _]. split; [done|].
    apply Forall_map, Forall_true. done.
  - by rewrite length_map.
Qed.

Lemma acceptOnce_Do_fields w :
  ls (acceptOnce_Do w) = ls w /\ closeOnce (acceptOnce_Do w) = closeOnce w
  /\ doneC (acceptOnce_Do w) = doneC w /\ acceptC (acceptOnce_Do w) = acceptC w
  /\ trace (acceptOnce_Do w) = trace w.
Proof. unfold acceptOnce_Do. by destruct (acceptOnce w). Qed.

Lemma set_acceptC_Inv q w : Inv w -> Inv (set_acceptC q w).
Proof. intros [? ? ? ?]. by split. Qed.

Lemma Accept_select_Inv pick sch : forall w,
  Inv w -> Inv (Accept_select pick sch w).1.
Proof.
  induction sch as [|s sch IH]; intros w H; simpl;
    destruct (acceptC w) as [|a q], (doneC w), pick; simpl;
    auto using set_acceptC_Inv, worker_step_Inv.
Qed.

Lemma Accept_select_flags pick sch : forall w,
  same_flags w (Accept_select pick sch w).1.
Proof.
  induction sch as [|s sch IH]; intros w; simpl;
    destruct (acceptC w) as [|a q], (doneC w), pick; simpl; try (by split).
  all: eapply same_flags_trans;
    [apply frame_same_flags, worker_step_frame | apply IH].
Qed.

(** Once the cancellation signal has fired, [select] has a ready case. *)
Lemma Accept_select_done pick sch w :
  doneC w = true ->
  Accept_select pick sch w =
    match acceptC w with
    | a :: rest =>
        if pick then (set_acceptC rest w, Returned (c a, err a))
        else (w, Returned (None, Some errClosed))
    | [] => (w, Returned (None, Some errClosed))
    end.
Proof. intros H. destruct sch; simpl; rewrite H; by destruct (acceptC w). Qed.

Lemma Accept_Inv pick sch w : Inv w -> Inv (Accept pick sch w).1.
Proof.
  intros H. unfold Accept. destruct (bool_decide _); [done|].
  by apply Accept_select_Inv, acceptOnce_Do_Inv.
Qed.

Lemma SetDeadline_Inv t sch w : Inv w -> Inv (SetDeadline t sch w).1.
Proof.
  intros H. unfold SetDeadline. destruct (assert_deadline _ _); [done|].
  by apply apply_deadline_pres; auto using worker_step_Inv, log_Inv.
Qed.

Lemma Close_Inv sch fin w w' e :
  Inv w -> Close sch fin w = (w', Returned e) -> Inv w'.
Proof.
  intros H HC. destruct (closeOnce w) eqn:E.
  - rewrite (Close_again _ _ _ E) in HC. by injection HC as <- _.
  - destruct (Close_first_spec _ _ _ _ _ E HC)
      as (_ & _ & _ & _ & _ & _ & _ & _ & _ & _ & _ & _ & Hi).
    by apply Hi.
Qed.

(** ** Invariants of runs *)

Lemma Listen_Inv lns : Inv (Listen lns).
Proof. split; simpl; try done. lia. Qed.

Lemma exec_Inv o w w' : Inv w -> exec o w = Some w' -> Inv w'.
Proof.
  intros H E. destruct o as [pick sch| |t sch|sch fin|sch]; simpl in E.
  - injection E as <-. by apply Accept_Inv.
  - by injection E as <-.
  - injection E as <-. by apply SetDeadline_Inv.
  - destruct (Close sch fin w) as [w1 [e|]] eqn:HC; [|done].
    injection E as <-. by eapply Close_Inv.
  - injection E as <-. by apply run_workers_Inv.
Qed.

Lemma run_Inv ops : forall w w', Inv w -> run ops w = Some w' -> Inv w'.
Proof.
  induction ops as [|o ops IH]; intros w w' H R; simpl in R.
  - by injection R as <-.
  - destruct (exec o w) as [w1|] eqn:E; [|done].
    eapply IH; [|exact R]. by eapply exec_Inv.
Qed.

Lemma exec_ls o w w' : exec o w = Some w' -> ls w' = ls w.
Proof.
  intros E. destruct o as [pick sch| |t sch|sch fin|sch]; simpl in E.
  - injection E as <-. unfold Accept. destruct (bool_decide _); [done|].
    destruct (Accept_select_flags pick sch (acceptOnce_Do w)) as [-> _ _ _].
    apply acceptOnce_Do_fields.
  - by injection E as <-.
  - injection E as <-. unfold SetDeadline.
    destruct (assert_deadline _ _) as [e|dls]; [done|].
    destruct (apply_deadline_spec t sch dls 0 None w)
      as (_ & _ & _ & _ & _ & _ & _ & [-> _ _ _] & _). done.
  - destruct (Close sch fin w) as [w1 [e|]] eqn:HC; [|done].
    injection E as <-. destruct (closeOnce w) eqn:Hc.
    + rewrite (Close_again _ _ _ Hc) in HC. by injection HC as <- _.
    + destruct (Close_first_spec _ _ _ _ _ Hc HC)
        as (_ & _ & _ & _ & _ & _ & _ & _ & Hl & _). done.
  - injection E as <-. apply (run_workers_frame sch w).
Qed.

Lemma run_ls ops : forall w w', run ops w = Some w' -> ls w' = ls w.
Proof.
  induction ops as [|o ops IH]; intros w w' R; simpl in R.
  - by injection R as <-.
  - destruct (exec o w) as [w1|] eqn:E; [|done].
    rewrite (IH _ _ R). by eapply exec_ls.
Qed.

Lemma worker_step_drained s w : drained w -> drained (worker_step s w).
Proof.
  intros (HI & Hc & Hq). split_and!.
  - by apply worker_step_Inv.
  - by rewrite (fr_closeOnce _ _ (worker_step_frame s w)).
  - destruct (inv_closed _ HI Hc) as [Hd Hs].
    unfold_worker_step s w; try done.
    + by destruct (ln_Accept ln (trace w)).
    + by rewrite Hd.
    + rewrite Forall_lookup in Hs. specialize (Hs _ _ Hpc). done.
Qed.

Lemma log_drained e w : drained w -> drained (log e w).
Proof. intros (HI & Hc & Hq). split_and!; [by apply log_Inv | done | done]. Qed.

Lemma Accept_drained pick sch w :
  drained w -> ls w <> [] ->
  Accept pick sch w = (acceptOnce_Do w, Returned (None, Some errClosed)).
Proof.
  intros (HI & Hc & Hq) Hn. unfold Accept.
  rewrite bool_decide_eq_false_2; [|by destruct (ls w)].
  destruct (acceptOnce_Do_fields w) as (_ & _ & Hd & Hq' & _).
  rewrite Accept_select_done.
  - by rewrite Hq', Hq.
  - rewrite Hd. by apply (inv_closed _ HI Hc).
Qed.

Lemma exec_drained o w w' : drained w -> exec o w = Some w' -> drained w'.
Proof.
  intros D E. destruct o as [pick sch| |t sch|sch fin|sch]; simpl in E.
  - injection E as <-. unfold Accept. destruct (bool_decide _) eqn:B; [done|].
    apply bool_decide_eq_false_1 in B.
    pose proof (Accept_drained pick sch w D) as HA. unfold Accept in HA.
    rewrite bool_decide_eq_false_2 in HA by done.
    rewrite HA; [|by destruct (ls w)]. simpl.
    destruct D as (HI & Hc & Hq).
    destruct (acceptOnce_Do_fields w) as (_ & Hc' & _ & Hq' & _).
    split_and!; [by apply acceptOnce_Do_Inv | congruence | congruence].
  - by injection E as <-.
  - injection E as <-. unfold SetDeadline.
    destruct (assert_deadline _ _) as [e|dls]; [done|].
    apply apply_deadline_pres; auto using worker_step_drained, log_drained.
  - destruct D as (HI & Hc & Hq).
    rewrite (Close_again _ _ _ Hc) in E. by injection E as <-.
  - injection E as <-.
    apply run_workers_pres; auto using worker_step_drained.
Qed.

Lemma run_drained ops : forall w w', drained w -> run ops w = Some w' -> drained w'.
Proof.
  induction ops as [|o ops IH]; intros w w' H R; simpl in R.
  - by injection R as <-.
  - destruct (exec o w) as [w1|] eqn:E; [|done].
    eapply IH; [|exact R]. by eapply exec_drained.
Qed.

(** ** Close returns *)

Lemma wg_Wait_returns fin : forall w,
  wg (run_workers fin w) = 0 -> exists w', wg_Wait fin w = (w', Returned tt).
Proof.
  induction fin as [|s fin IH]; intros w H; simpl in *;
    destruct (bool_decide (wg w = 0)) eqn:E; eauto.
  apply bool_decide_eq_false_1 in E. done.
Qed.

Lemma worker_step_other k p j w :
  j <> k -> workers (worker_step (k, p) w) !! j = workers w !! j.
Proof.
  intros Hne. unfold worker_step.
  destruct (workers w !! k) as [[|a|a|]|] eqn:Hpc;
    destruct (ls w !! k) as [ln|] eqn:Hln; try done.
  - destruct (ln_Accept ln (trace w)); [|done]. simpl.
    by rewrite list_lookup_insert_ne.
  - destruct (doneC w); simpl; by rewrite list_lookup_insert_ne.
  - destruct (doneC w), (bool_decide _), p; simpl; try done;
      by rewrite list_lookup_insert_ne.
Qed.

Lemma worker_step_done_stays s j w :
  workers w !! j = Some WDone -> workers (worker_step s w) !! j = Some WDone.
Proof.
  intros H. destruct s as [k p]. destruct (decide (j = k)) as [->|Hne].
  - unfold worker_step. by rewrite H.
  - by rewrite worker_step_other.
Qed.

Lemma worker_step_length s w :
  length (workers (worker_step s w)) = length (workers w).
Proof.
  unfold_worker_step s w; try done.
  - destruct (ln_Accept ln (trace w)); [|done]. simpl. by rewrite length_insert.
  - destruct (doneC w); simpl; by rewrite length_insert.
  - destruct (doneC w), (bool_decide _), pick; simpl; try done;
      by rewrite length_insert.
Qed.

Section Drain.
Variable lns : list NetListener.
Hypothesis unblocks : Close_unblocks_Accept lns.

Lemma worker_step_closing s w :
  closing lns w -> closing lns (worker_step s w).
Proof using Type.
  intros (Hl & Hd & Hlen & Hc).
  destruct (worker_step_frame s w) as [F1 F2 F3 F4 (evs & Ht & _)].
  split_and!; try congruence.
  - by rewrite worker_step_length.
  - intros k Hk. destruct (Hc k Hk) as [r Hr]. exists r.
    rewrite Ht. apply elem_of_app. by left.
Qed.

(** With the signal fired and its listener closed, a worker is out of
    [l.accept] after two steps. *)
Lemma two_steps_done k w :
  closing lns w -> k < length (workers w) ->
  workers (worker_step (k, false) (worker_step (k, false) w)) !! k = Some WDone.
Proof using unblocks.
  intros (Hl & Hd & Hlen & Hc) Hk.
  destruct (lookup_lt_is_Some_2 (workers w) k Hk) as [pc Hpc].
  assert (Hkl : k < length (ls w)) by (rewrite Hl; lia).
  destruct (lookup_lt_is_Some_2 (ls w) k Hkl) as [ln Hln].
  destruct pc as [|a|a|].
  - destruct (Hc k ltac:(lia)) as [r Hr].
    rewrite <- Hl in unblocks.
    destruct (unblocks k ln (trace w) r Hln Hr) as [a Ha].
    assert (E1 : worker_step (k, false) w
                 = set_workers (<[k := WCheck a]> (workers w)) (log (EvAccept k a) w)).
    { unfold worker_step. by rewrite Hpc, Hln, Ha. }
    rewrite E1. unfold worker_step at 1. simpl.
    rewrite list_lookup_insert_eq by done. rewrite Hln, Hd. simpl.
    rewrite list_lookup_insert_eq; [done | by rewrite length_insert].
  - assert (E1 : worker_step (k, false) w = worker_exit k w).
    { unfold worker_step. by rewrite Hpc, Hln, Hd. }
    rewrite E1. apply worker_step_done_stays. simpl.
    by rewrite list_lookup_insert_eq.
  - assert (E1 : worker_step (k, false) w = worker_exit k w).
    { unfold worker_step. rewrite Hpc, Hln, Hd. by destruct (bool_decide _). }
    rewrite E1. apply worker_step_done_stays. simpl.
    by rewrite list_lookup_insert_eq.
  - by do 2 apply worker_step_done_stays.
Qed.

Lemma drain_workers ks : forall w w',
  closing lns w ->
  w' = run_workers (flat_map (fun k => [(k, false); (k, false)]) ks) w ->
  closing lns w'
  /\ length (workers w') = length (workers w)
  /\ (forall j, workers w !! j = Some WDone -> workers w' !! j = Some WDone)
  /\ (forall j, j ∈ ks -> j < length (workers w) -> workers w' !! j = Some WDone).
Proof using unblocks.
  induction ks as [|k ks IH]; intros w w' Hc ->.
  - split_and!; try done. intros j Hj. by apply elem_of_nil in Hj.
  - set (w2 := worker_step (k, false) (worker_step (k, false) w)).
    change (run_workers (flat_map (fun k => [(k, false); (k, false)]) (k :: ks)) w)
      with (run_workers (flat_map (fun k => [(k, false); (k, false)]) ks) w2).
    assert (Hc2 : closing lns w2) by (by do 2 apply worker_step_closing).
    assert (Hlen2 : length (workers w2) = length (workers w)).
    { unfold w2. by rewrite !worker_step_length. }
    destruct (IH w2 _ Hc2 eq_refl) as (Hc' & Hlen' & Hst & Hks).
    split_and!.
    + done.
    + congruence.
    + intros j Hj. apply Hst. unfold w2. by do 2 apply worker_step_done_stays.
    + intros j Hj Hlt. apply elem_of_cons in Hj as [->|Hj].
      * apply Hst. by apply two_steps_done.
      * apply Hks; [done | lia].
Qed.
End Drain.

Lemma numbered_lookup {A} (rs : list A) : forall k0 k,
  k < length rs -> exists r, (k0 + k, r) ∈ numbered k0 rs.
Proof.
  induction rs as [|r rs IH]; intros k0 k Hk; simpl in Hk; [lia|].
  destruct k as [|k]; simpl.
  - exists r. rewrite Nat.add_0_r. apply elem_of_cons. by left.
  - destruct (IH (S k0) k ltac:(lia)) as [r' Hr']. exists r'.
    apply elem_of_cons. right. by replace (k0 + S k) with (S k0 + k) by lia.
Qed.

Lemma closes_elem k r tr : (k, r) ∈ closes tr -> EvClose k r ∈ tr.
Proof.
  induction tr as [|e tr IH]; simpl; intros H; [by apply elem_of_nil in H|].
  destruct e; try (apply elem_of_cons; right; by apply IH).
  apply elem_of_cons in H as [[= -> ->]|H]; apply elem_of_cons; auto.
Qed.

(** [Close] returns once the workers have had two steps each, whatever
    happened before, provided closing a listener ends its [Accept]. *)
Lemma Close_returns sch w :
  Inv w -> Close_unblocks_Accept (ls w) ->
  exists w' e,
    Close sch (two_steps_each (length (ls w))) w = (w', Returned e).
Proof.
  intros HI Hun. unfold Close. destruct (closeOnce w) eqn:Hc; [eauto|].
  unfold Close_body. simpl.
  set (w0 := log EvCancel (set_doneC true w)).
  destruct (close_all_spec sch (ls w) 0 None w0)
    as (evs & rs & Ht & Hcl & _ & Hf & _ & Hs & Hi).
  destruct (close_all sch 0 (ls w) None w0) as [w1 e1] eqn:Eb.
  simpl in Ht, Hs, Hi.
  assert (HI1 : Inv w1).
  { apply Hi. subst w0. by apply log_Inv, set_doneC_Inv. }
  assert (Hc1 : closing (ls w) w1).
  { destruct Hs as [S1 S2 S3 S4]. subst w0. simpl in *. split_and!; try done.
    - rewrite <- S1. apply (inv_len _ HI1).
    - intros k Hk. rewrite (Forall2_length _ _ _ Hf) in Hk.
      destruct (numbered_lookup rs 0 k Hk) as [r Hr]. exists r.
      rewrite Ht. apply elem_of_app. right. apply closes_elem. by rewrite Hcl. }
  set (w2 := run_workers (two_steps_each (length (ls w))) w1).
  destruct (drain_workers (ls w) Hun (seq 0 (length (ls w))) w1 w2 Hc1 eq_refl)
    as (_ & Hlen & _ & Hall).
  assert (Hz : wg w2 = 0).
  { rewrite (inv_wg w2) by (by apply run_workers_Inv).
    apply live_count_done, Forall_lookup. intros j pc Hj.
    assert (Hlt : j < length (workers w1)).
    { rewrite <- Hlen. by eapply lookup_lt_Some. }
    rewrite Hall in Hj; [congruence | | done].
    apply elem_of_seq. destruct Hc1 as (_ & _ & Hl1 & _). lia. }
  destruct (wg_Wait_returns _ _ Hz) as [w3 ->]. eauto.
Qed.

(** ** Composite address *)

Lemma collect_map {A B} (f : A -> B) (l : list A) : forall acc,
  fold_left (fun ss x => ss ++ [f x]) l acc = acc ++ map f l.
Proof.
  induction l as [|x l IH]; intros acc; simpl.
  - by rewrite app_nil_r.
  - rewrite IH. by rewrite <- app_assoc.
Qed.

Lemma strings_Join_concat elems sep :
  strings_Join elems sep = String.concat sep elems.
Proof.
  induction elems as [|s [|s' rest] IH]; try done.
  change (strings_Join (s :: s' :: rest) sep)
    with (s +:+ sep +:+ strings_Join (s' :: rest) sep).
  by rewrite IH.
Qed.

Lemma join_concat (a : Addr) fn : join a fn = String.concat "," (map fn a).
Proof. unfold join. by rewrite collect_map, strings_Join_concat. Qed.

Lemma Listener_Addr_map w :
  Listener_Addr w = map (fun ln => ln_Addr ln (trace w)) (ls w).
Proof. unfold Listener_Addr. by rewrite collect_map. Qed.

(** C8. [Addr()] returns the addresses of the underlying listeners in
    construction order; [Network()] of it is their [Network()] strings
    joined by a comma, and [String()] their [String()] forms joined by a
    comma, in that order. *)
Theorem Addr_joins_members w :
  Listener_Addr w = map (fun ln => ln_Addr ln (trace w)) (ls w)
  /\ Addr_Network (Listener_Addr w)
     = String.concat "," (map (fun ln => addr_Network (ln_Addr ln (trace w))) (ls w))
  /\ Addr_String (Listener_Addr w)
     = String.concat "," (map (fun ln => addr_String (ln_Addr ln (trace w))) (ls w)).
Proof.
  split; [apply Listener_Addr_map|].
  unfold Addr_Network, Addr_String. rewrite !join_concat, Listener_Addr_map.
  by rewrite !map_map.
Qed.

(** The address test of [listener_test.go]. *)
Example Addr_of_three :
  let w := Listen [tcpListener "127.0.0.1:80"; tcpListener "[::1]:80";
                   unixListener "/tmp/foo"] in
  Addr_Network (Listener_Addr w) = "tcp,tcp,unix"
  /\ Addr_String (Listener_Addr w) = "127.0.0.1:80,[::1]:80,/tmp/foo".
Proof. split; reflexivity. Qed.

(** C9. With zero underlying listeners [Addr()] returns the empty
    composite address, whose [Network()] and [String()] are both the empty
    string. *)
Theorem Addr_no_listeners w :
  ls w = [] ->
  Listener_Addr w = [] /\ Addr_Network (Listener_Addr w) = ""
  /\ Addr_String (Listener_Addr w) = "".
Proof. intros H. unfold Listener_Addr. rewrite H. by split_and!. Qed.

Lemma Addr_no_listeners_witness :
  Listener_Addr (Listen []) = [] /\ Addr_Network (Listener_Addr (Listen [])) = ""
  /\ Addr_String (Listener_Addr (Listen [])) = "".
Proof. apply (Addr_no_listeners (Listen [])). reflexivity. Defined.

(** ** SetDeadline *)

Lemma assert_deadline_all lns :
  Forall (fun ln => is_Some (ln_SetDeadline ln)) lns ->
  exists dls, assert_deadline lns [] = inr dls
    /\ Forall2 (fun ln dl => ln_SetDeadline ln = Some dl) lns dls.
Proof.
  intros Hall. destruct (assert_deadline lns []) as [e|dls] eqn:E.
  - destruct (assert_deadline_inl _ _ _ E) as (pre & ln & post & -> & _ & Hn & _).
    apply Forall_app in Hall as [_ Hall]. apply Forall_cons in Hall as [[dl Hdl] _].
    congruence.
  - destruct (assert_deadline_inr _ _ _ E) as (dls' & -> & Hf). by exists dls'.
Qed.

(** C2. If some underlying listener has no [SetDeadline] method,
    [SetDeadline(t)] returns the error naming such a listener and leaves
    the Listener as it was: no [SetDeadline] of any underlying listener
    has been called. *)
Theorem SetDeadline_unsupported t sch w ln :
  ln ∈ ls w -> ln_SetDeadline ln = None ->
  exists bad,
    bad ∈ ls w /\ ln_SetDeadline bad = None
    /\ SetDeadline t sch w = (w, Some (errNoSetDeadline bad))
    /\ deadlines (trace (SetDeadline t sch w).1) = deadlines (trace w).
Proof.
  intros Hin Hnone. unfold SetDeadline.
  destruct (assert_deadline (ls w) []) as [e|dls] eqn:E.
  - destruct (assert_deadline_inl _ _ _ E) as (pre & bad & post & Hl & _ & Hn & ->).
    exists bad. split_and!; try done.
    rewrite Hl. apply elem_of_app. right. apply elem_of_cons. by left.
  - destruct (assert_deadline_inr _ _ _ E) as (dls' & _ & Hf).
    apply list_elem_of_lookup in Hin as [i Hi].
    destruct (Forall2_lookup_l _ _ _ _ _ Hf Hi) as (dl & _ & Hdl). congruence.
Qed.

Lemma SetDeadline_unsupported_witness :
  exists bad,
    bad ∈ [tcpListener "a"; errListener None]
    /\ ln_SetDeadline bad = None
    /\ SetDeadline 7%Z idle (Listen [tcpListener "a"; errListener None])
       = (Listen [tcpListener "a"; errListener None], Some (errNoSetDeadline bad))
    /\ deadlines (trace (SetDeadline 7%Z idle
                           (Listen [tcpListener "a"; errListener None])).1) = [].
Proof.
  apply (SetDeadline_unsupported 7%Z idle
           (Listen [tcpListener "a"; errListener None]) (errListener None)).
  - simpl. apply elem_of_cons. right. apply elem_of_cons. by left.
  - reflexivity.
Defined.

(** C5. If every underlying listener has a [SetDeadline] method,
    [SetDeadline(t)] calls it with [t] on every underlying listener, in
    construction order and whatever the earlier calls returned, and
    returns the first error among their results ([nil] if there is
    none). *)
Theorem SetDeadline_applies_to_all t sch w :
  Forall (fun ln => is_Some (ln_SetDeadline ln)) (ls w) ->
  exists new rs,
    trace (SetDeadline t sch w).1 = trace w ++ new
    /\ deadlines new = map (fun p => (p.1, t, p.2)) (numbered 0 rs)
    /\ Forall2 (fun ln r => exists dl tr, ln_SetDeadline ln = Some dl /\ r = dl t tr)
         (ls w) rs
    /\ (SetDeadline t sch w).2 = first_error rs.
Proof.
  intros Hall. unfold SetDeadline.
  destruct (assert_deadline_all _ Hall) as (dls & -> & Hf).
  destruct (apply_deadline_spec t sch dls 0 None w)
    as (new & rs & Ht & Hd & _ & Hr & He & _ & _).
  exists new, rs. split_and!; try done.
  clear -Hf Hr. revert rs Hr.
  induction Hf as [|ln dl lns dls Hdl _ IH]; intros rs Hr.
  - inversion Hr. constructor.
  - inversion Hr as [|? r ? rs' [tr Htr] Hr']; subst.
    constructor; [by exists dl, tr | by apply IH].
Qed.

Lemma SetDeadline_applies_to_all_witness :
  exists new rs,
    trace (SetDeadline 7%Z idle (Listen [unixListener "a"; tcpListener "b"])).1
      = [] ++ new
    /\ deadlines new = map (fun p => (p.1, 7%Z, p.2)) (numbered 0 rs)
    /\ Forall2 (fun ln r => exists dl tr, ln_SetDeadline ln = Some dl /\ r = dl 7%Z tr)
         [unixListener "a"; tcpListener "b"] rs
    /\ (SetDeadline 7%Z idle (Listen [unixListener "a"; tcpListener "b"])).2
       = first_error rs.
Proof.
  apply (SetDeadline_applies_to_all 7%Z idle (Listen [unixListener "a"; tcpListener "b"])).
  simpl. repeat constructor; by eexists.
Defined.

(** The first listener fails, the second is still given the deadline, and
    the first error is returned. *)
Example SetDeadline_continues :
  let r := SetDeadline 7%Z idle (Listen [unixListener "a"; tcpListener "b"]) in
  trace r.1 = [EvSetDeadline 0 7%Z (Some "set deadline: timeout"); EvSetDeadline 1 7%Z None]
  /\ r.2 = Some "set deadline: timeout".
Proof. split; reflexivity. Qed.

(** C10. With zero underlying listeners [SetDeadline(t)] returns [nil] and
    changes nothing, while [Accept] on the same Listener returns an
    error. *)
Theorem SetDeadline_no_listeners t sch pick s w :
  ls w = [] ->
  SetDeadline t sch w = (w, None)
  /\ Accept pick s w = (w, Returned (None, Some errNoListeners)).
Proof.
  intros H. unfold SetDeadline, Accept. rewrite H. by split.
Qed.

Lemma SetDeadline_no_listeners_witness :
  SetDeadline 7%Z idle (Listen []) = (Listen [], None)
  /\ Accept true [] (Listen []) = (Listen [], Returned (None, Some errNoListeners)).
Proof. apply (SetDeadline_no_listeners 7%Z idle true [] (Listen [])). reflexivity. Defined.

(** ** Close *)

Lemma close_count_app k t1 t2 :
  close_count k (t1 ++ t2) = close_count k t1 + close_count k t2.
Proof.
  induction t1 as [|e t1 IH]; [done|]. destruct e; simpl; rewrite ?IH; lia.
Qed.

Lemma close_count_numbered k tr rs : forall k0,
  closes tr = numbered k0 rs ->
  close_count k tr = if decide (k0 <= k < k0 + length rs) then 1 else 0.
Proof.
  revert rs. induction tr as [|e tr IH]; intros rs k0 H; simpl in H.
  - destruct rs; [|done]. simpl. by rewrite decide_False by lia.
  - destruct e as [j a|j r|j t r| |]; simpl; try by apply IH.
    destruct rs as [|r' rs]; [done|]. simpl in H. injection H as -> -> H.
    rewrite (IH _ _ H). simpl.
    repeat case_decide; lia.
Qed.

(** C3. The first call of [Close] calls [Close] on every underlying
    listener exactly once, in construction order and whatever the earlier
    ones returned, and returns the error of the first one that failed
    ([nil] if none did). *)
Theorem Close_closes_every_listener sch fin w w' e :
  closeOnce w = false ->
  Close sch fin w = (w', Returned e) ->
  exists new rs,
    trace w' = trace w ++ new
    /\ closes new = numbered 0 rs
    /\ Forall2 (fun ln r => exists tr, r = ln_Close ln tr) (ls w) rs
    /\ (forall k, k < length (ls w) -> close_count k new = 1)
    /\ e = first_error rs.
Proof.
  intros Hc HC.
  destruct (Close_first_spec _ _ _ _ _ Hc HC)
    as (mid & rs & Ht & Hcl & _ & Hf & He & _).
  exists ([EvCancel] ++ mid ++ [EvWait]), rs.
  assert (Hcl' : closes ([EvCancel] ++ mid ++ [EvWait]) = numbered 0 rs).
  { simpl. rewrite closes_app, Hcl. simpl. by rewrite app_nil_r. }
  split_and!; try done.
  intros k Hk. rewrite (close_count_numbered k _ rs 0 Hcl').
  rewrite (Forall2_length _ _ _ Hf) in Hk. by rewrite decide_True by lia.
Qed.

(** The close test of [listener_test.go]: the second listener fails, the
    third is closed all the same, and the error of the second is
    returned. *)
Lemma Close_closes_every_listener_witness :
  exists new rs,
    trace (Close idle [] closeTest).1 = [] ++ new
    /\ closes new = numbered 0 rs
    /\ Forall2 (fun ln r => exists tr, r = ln_Close ln tr) (ls closeTest) rs
    /\ (forall k, k < 3 -> close_count k new = 1)
    /\ Some "some error" = first_error rs.
Proof.
  apply (Close_closes_every_listener idle [] closeTest
           (Close idle [] closeTest).1 (Some "some error")); reflexivity.
Defined.

Lemma exec_closeOnce o w w' :
  closeOnce w = true -> exec o w = Some w' -> closeOnce w' = true.
Proof.
  intros Hc E. destruct o as [pick sch| |t sch|sch fin|sch]; simpl in E.
  - injection E as <-. unfold Accept. destruct (bool_decide _); [done|].
    destruct (Accept_select_flags pick sch (acceptOnce_Do w)) as [_ _ -> _].
    destruct (acceptOnce_Do_fields w) as (_ & -> & _). done.
  - by injection E as <-.
  - injection E as <-. unfold SetDeadline.
    destruct (assert_deadline _ _) as [e|dls]; [done|].
    destruct (apply_deadline_spec t sch dls 0 None w)
      as (_ & _ & _ & _ & _ & _ & _ & [_ _ -> _] & _). done.
  - rewrite (Close_again _ _ _ Hc) in E. by injection E as <-.
  - injection E as <-. by rewrite (fr_closeOnce _ _ (run_workers_frame sch w)).
Qed.

Lemma run_closeOnce ops : forall w w',
  closeOnce w = true -> run ops w = Some w' -> closeOnce w' = true.
Proof.
  induction ops as [|o ops IH]; intros w w' H R; simpl in R.
  - by injection R as <-.
  - destruct (exec o w) as [w1|] eqn:E; [|done].
    eapply IH; [|exact R]. by eapply exec_closeOnce.
Qed.

(** C4. Once the first call of [Close] has returned, with an error or
    without, every later call of [Close], whatever the program did in
    between, returns [nil] and leaves the Listener untouched: the signal is
    not fired again and no underlying listener is closed again. *)
Theorem Close_later_calls sch fin w w1 e ops w2 sch' fin' :
  closeOnce w = false ->
  Close sch fin w = (w1, Returned e) ->
  run ops w1 = Some w2 ->
  Close sch' fin' w2 = (w2, Returned None).
Proof.
  intros Hc HC R. apply Close_again. eapply run_closeOnce; [|exact R].
  destruct (Close_first_spec _ _ _ _ _ Hc HC)
    as (_ & _ & _ & _ & _ & _ & _ & _ & _ & _ & H & _).
  done.
Qed.

Lemma Close_later_calls_witness :
  Close idle [] (Close idle [] (Close idle [] closeTest).1).1
  = ((Close idle [] (Close idle [] closeTest).1).1, Returned None).
Proof.
  apply (Close_later_calls idle [] closeTest (Close idle [] closeTest).1
           (Some "some error") [OpClose idle []]); reflexivity.
Defined.

(** The three calls of the close test. *)
Example Close_three_times :
  let r1 := Close idle [] closeTest in
  let r2 := Close idle [] r1.1 in
  let r3 := Close idle [] r2.1 in
  (r1.2, r2.2, r3.2) = (Returned (Some "some error"), Returned None, Returned None)
  /\ trace r3.1 = [EvCancel; EvClose 0 None; EvClose 1 (Some "some error");
                   EvClose 2 (Some "another error"); EvWait].
Proof. split; reflexivity. Qed.

(** C7. The first call of [Close] fires the cancellation signal first,
    then closes the underlying listeners, and returns only after the wait
    for the workers has ended, when every worker has left its loop. *)
Theorem Close_order lns ops sch fin w w' e :
  run ops (Listen lns) = Some w ->
  closeOnce w = false ->
  Close sch fin w = (w', Returned e) ->
  exists mid rs,
    trace w' = trace w ++ [EvCancel] ++ mid ++ [EvWait]
    /\ caller_events mid = map (fun p => EvClose p.1 p.2) (numbered 0 rs)
    /\ length rs = length lns
    /\ doneC w' = true
    /\ wg w' = 0
    /\ Forall (fun pc => pc = WDone) (workers w').
Proof.
  intros R Hc HC.
  assert (HI : Inv w) by (eapply run_Inv; [apply Listen_Inv | exact R]).
  destruct (Close_first_spec _ _ _ _ _ Hc HC)
    as (mid & rs & Ht & _ & Hce & Hf & _ & Hz & _ & _ & _ & Hd & Hi).
  exists mid, rs. split_and!; try done.
  - rewrite <- (Forall2_length _ _ _ Hf). rewrite (run_ls _ _ _ R). done.
  - by apply Hi.
Qed.

Lemma Close_order_witness :
  exists mid rs,
    trace (Close idle (two_steps_each 2) served).1
      = trace served ++ [EvCancel] ++ mid ++ [EvWait]
    /\ caller_events mid = map (fun p => EvClose p.1 p.2) (numbered 0 rs)
    /\ length rs = 2
    /\ doneC (Close idle (two_steps_each 2) served).1 = true
    /\ wg (Close idle (two_steps_each 2) served).1 = 0
    /\ Forall (fun pc => pc = WDone)
         (workers (Close idle (two_steps_each 2) served).1).
Proof.
  apply (Close_order pair serve idle (two_steps_each 2) served
           (Close idle (two_steps_each 2) served).1 None);
    vm_compute; reflexivity.
Defined.

(** What that call logs: the signal, the two closes, the workers' last
    calls to [Accept] failing, and the end of the wait. *)
Example Close_order_trace :
  trace (Close idle (two_steps_each 2) served).1
  = [EvAccept 0 (mkAccept (Some 0) None);
     EvCancel; EvClose 0 None; EvClose 1 None;
     EvAccept 0 (mkAccept None (Some "use of closed network connection"));
     EvAccept 1 (mkAccept None (Some "use of closed network connection"));
     EvWait].
Proof. reflexivity. Qed.

(** ** Accept *)

(** C6. On a Listener made with zero underlying listeners every call of
    [Accept] returns at once a nil connection and the error
    "multinet: no net.Listeners added to Listener"; it does not park, and
    no worker exists before or after it. *)
Theorem Accept_no_listeners ops w pick sch :
  run ops (Listen []) = Some w ->
  Accept pick sch w = (w, Returned (None, Some errNoListeners))
  /\ workers w = [] /\ wg w = 0 /\ acceptOnce w = false.
Proof.
  intros R.
  assert (HI : Inv w) by (eapply run_Inv; [apply Listen_Inv | exact R]).
  assert (Hl : ls w = []) by (by rewrite (run_ls _ _ _ R)).
  assert (Hw : workers w = []).
  { pose proof (inv_len _ HI) as H. rewrite Hl in H. simpl in H.
    destruct (workers w); [done | simpl in H; lia]. }
  assert (Ha : forall p s v, ls v = [] ->
                 Accept p s v = (v, Returned (None, Some errNoListeners))).
  { intros p s v Hv. unfold Accept. by rewrite Hv. }
  split_and!; try done.
  - by apply Ha.
  - by rewrite (inv_wg _ HI), Hw.
  - clear Hw HI Hl. revert w R.
    induction ops as [|o ops IH] using rev_ind; intros w R.
    + by injection R as <-.
    + assert (exists w0, run ops (Listen []) = Some w0 /\ exec o w0 = Some w)
        as (w0 & R0 & E).
      { clear IH. revert R. generalize (Listen []).
        induction ops as [|o' ops IH']; intros v R; simpl in *.
        - destruct (exec o v) as [v'|] eqn:E; [|done]. injection R as <-. eauto.
        - destruct (exec o' v) as [v'|]; [|done]. by apply IH'. }
      specialize (IH _ R0).
      assert (Hl0 : ls w0 = []) by (by rewrite (run_ls _ _ _ R0)).
      assert (HI0 : Inv w0) by (eapply run_Inv; [apply Listen_Inv | exact R0]).
      destruct o as [p s| |t s|s f|s]; simpl in E.
      * rewrite (Ha p s _ Hl0) in E. by injection E as <-.
      * by injection E as <-.
      * unfold SetDeadline in E. rewrite Hl0 in E. by injection E as <-.
      * destruct (Close s f w0) as [w1 [e|]] eqn:HC; [|done]. injection E as <-.
        destruct (closeOnce w0) eqn:Hc.
        -- rewrite (Close_again _ _ _ Hc) in HC. by injection HC as <- _.
        -- destruct (Close_first_spec _ _ _ _ _ Hc HC)
             as (_ & _ & _ & _ & _ & _ & _ & _ & _ & -> & _). done.
      * injection E as <-.
        by rewrite (fr_acceptOnce _ _ (run_workers_frame s w0)).
Qed.

Lemma Accept_no_listeners_witness :
  Accept true [] (Close idle [] (Listen [])).1
  = ((Close idle [] (Listen [])).1, Returned (None, Some errNoListeners))
  /\ workers (Close idle [] (Listen [])).1 = []
  /\ wg (Close idle [] (Listen [])).1 = 0
  /\ acceptOnce (Close idle [] (Listen [])).1 = false.
Proof.
  apply (Accept_no_listeners [OpClose idle []] (Close idle [] (Listen [])).1 true []).
  reflexivity.
Defined.

(** C1, as amended. On a Listener with at least one underlying listener,
    once [Close] has returned and the result channel holds no undelivered
    result, every later call of [Accept], whatever the program did in
    between, returns a nil connection and the error
    "multinet: use of closed network connection". *)
Theorem Accept_after_Close lns ops w ops' w' pick sch :
  lns <> [] ->
  run ops (Listen lns) = Some w ->
  closeOnce w = true ->
  acceptC w = [] ->
  run ops' w = Some w' ->
  exists w'', Accept pick sch w' = (w'', Returned (None, Some errClosed)).
Proof.
  intros Hn R Hc Hq R'.
  assert (HI : Inv w) by (eapply run_Inv; [apply Listen_Inv | exact R]).
  assert (D : drained w') by (eapply run_drained; [|exact R']; by split_and!).
  exists (acceptOnce_Do w'). apply Accept_drained; [done|].
  by rewrite (run_ls _ _ _ R'), (run_ls _ _ _ R).
Qed.

Lemma Accept_after_Close_witness :
  exists w'',
    Accept false [] (Accept true [] (Close idle [] (Listen pair)).1).1
    = (w'', Returned (None, Some errClosed)).
Proof.
  apply (Accept_after_Close pair [OpClose idle []] (Close idle [] (Listen pair)).1
           [OpAccept true []] (Accept true [] (Close idle [] (Listen pair)).1).1
           false []); try reflexivity.
  discriminate.
Defined.

(** C1 as stated fails on the empty Listener: after [Close], [Accept]
    returns the error of the empty set, not the closed-use error. *)
Lemma Accept_after_Close_empty_set :
  (Close idle [] (Listen [])).2 = Returned None
  /\ (Accept true [] (Close idle [] (Listen [])).1).2
     = Returned (None, Some errNoListeners)
  /\ (Accept true [] (Close idle [] (Listen [])).1).2
     <> Returned (None, Some errClosed).
Proof. split_and!; [reflexivity | reflexivity | discriminate]. Qed.

(** With results left in the channel, the [select] of [Accept] may still
    deliver a connection after [Close] has returned. *)
Example Accept_after_Close_backlog :
  let closed := Close idle (two_steps_each 2) backlog in
  closed.2 = Returned None
  /\ acceptC closed.1 = [mkAccept (Some 1) None; mkAccept (Some 2) None]
  /\ (Accept true [] closed.1).2 = Returned (Some 1, None)
  /\ (Accept false [] closed.1).2 = Returned (None, Some errClosed).
Proof. split_and!; reflexivity. Qed.

(** When closing a listener ends its [Accept], the first [Close] does
    return. *)
Example Close_returns_served :
  (Close idle (two_steps_each 2) served).2 = Returned None.
Proof. reflexivity. Qed.

(** ** What every call keeps

    A property kept by the worker steps and by each field update a method
    makes is kept by every run. *)
Section Stable.
Variable P : World -> Prop.
Hypothesis P_step : forall s w, P w -> P (worker_step s w).
Hypothesis P_log : forall e w, P w -> P (log e w).
Hypothesis P_recv : forall a q w, acceptC w = a :: q -> P w -> P (set_acceptC q w).
Hypothesis P_spawn : forall w, P w -> P (acceptOnce_Do w).
Hypothesis P_cancel : forall w, closeOnce w = false -> P w -> P (set_doneC true w).
Hypothesis P_closed : forall w,
  wg w = 0 -> doneC w = true -> P w -> P (set_closeOnce true w).

Lemma Accept_select_stable pick sch : forall w,
  P w -> P (Accept_select pick sch w).1.
Proof using P_step P_recv.
  induction sch as [|s sch IH]; intros w H; simpl;
    destruct (acceptC w) as [|a q] eqn:E, (doneC w), pick; simpl; eauto.
Qed.

Lemma Accept_stable pick sch w : P w -> P (Accept pick sch w).1.
Proof using P_step P_recv P_spawn.
  intros H. unfold Accept. destruct (bool_decide _); [done|].
  by apply Accept_select_stable, P_spawn.
Qed.

Lemma SetDeadline_stable t sch w : P w -> P (SetDeadline t sch w).1.
Proof using P_step P_log.
  intros H. unfold SetDeadline. destruct (assert_deadline _ _); [done|].
  by apply apply_deadline_pres.
Qed.

Lemma Close_stable sch fin w w' e :
  Close sch fin w = (w', Returned e) -> P w -> P w'.
Proof using P_step P_log P_cancel P_closed.
  intros HC H. destruct (closeOnce w) eqn:Hc.
  - rewrite (Close_again _ _ _ Hc) in HC. by injection HC as <- _.
  - unfold Close in HC. rewrite Hc in HC. unfold Close_body in HC. simpl in HC.
    set (w0 := log EvCancel (set_doneC true w)) in HC.
    assert (H0 : P w0) by (by apply P_log, P_cancel).
    pose proof (close_all_pres P P_step P_log sch (ls w) 0 None w0 H0) as H1.
    destruct (close_all_spec sch (ls w) 0 None w0)
      as (_ & _ & _ & _ & _ & _ & _ & Hs & _).
    destruct (close_all sch 0 (ls w) None w0) as [w1 e1]. simpl in H1, Hs.
    pose proof (wg_Wait_pres P P_step P_log fin w1 H1) as H2.
    destruct (wg_Wait fin w1) as [w2 [u|]] eqn:Ew; [|done].
    injection HC as <- _. simpl in H2.
    destruct (wg_Wait_spec _ _ _ _ Ew) as (_ & _ & _ & Hz & Hs2).
    apply P_closed; try done.
    destruct Hs, Hs2. subst w0. simpl in *. congruence.
Qed.

Lemma exec_stable o w w' : P w -> exec o w = Some w' -> P w'.
Proof using P_step P_log P_recv P_spawn P_cancel P_closed.
  intros H E. destruct o as [pick sch| |t sch|sch fin|sch]; simpl in E.
  - injection E as <-. by apply Accept_stable.
  - by injection E as <-.
  - injection E as <-. by apply SetDeadline_stable.
  - destruct (Close sch fin w) as [w1 [e|]] eqn:HC; [|done].
    injection E as <-. by eapply Close_stable.
  - injection E as <-. by apply run_workers_pres.
Qed.

Lemma run_stable ops : forall w w', P w -> run ops w = Some w' -> P w'.
Proof using P_step P_log P_recv P_spawn P_cancel P_closed.
  induction ops as [|o ops IH]; intros w w' H R; simpl in R.
  - by injection R as <-.
  - destruct (exec o w) as [w1|] eqn:E; [|done].
    eapply IH; [|exact R]. by eapply exec_stable.
Qed.
End Stable.

(** ** Workers are started once, one per listener *)

Lemma started_step s w : started w -> started (worker_step s w).
Proof.
  unfold started. intros H.
  destruct (worker_step_frame s w) as [-> -> _ _ _].
  by rewrite worker_step_length.
Qed.

Lemma started_spawn w : started w -> started (acceptOnce_Do w).
Proof.
  unfold started, acceptOnce_Do. intros H.
  destruct (acceptOnce w) eqn:E; [intros _; by apply H|].
  simpl. intros _. by rewrite length_map.
Qed.

Lemma run_started ops w w' : started w -> run ops w = Some w' -> started w'.
Proof.
  apply (run_stable started); auto using started_step, started_spawn.
Qed.

Lemma Listen_started lns : started (Listen lns).
Proof. unfold started. simpl. done. Qed.

Lemma live_count_le ws : live_count ws <= length ws.
Proof.
  induction ws as [|pc ws IH]; simpl; [lia|]. destruct (live pc); lia.
Qed.

Lemma Accept_acceptOnce pick sch w :
  ls w <> [] -> acceptOnce (Accept pick sch w).1 = true.
Proof.
  intros Hn. unfold Accept.
  rewrite bool_decide_eq_false_2 by (by destruct (ls w)).
  rewrite (sf_acceptOnce _ _ (Accept_select_flags pick sch (acceptOnce_Do w))).
  unfold acceptOnce_Do. by destruct (acceptOnce w) eqn:E.
Qed.

(** X1. Whatever calls were made, the Listener is in one of two states:
    no [Accept] has started the workers, and there is none; or the workers
    were started, and there is exactly one per underlying listener. *)
Theorem workers_one_per_listener lns ops w :
  run ops (Listen lns) = Some w ->
  (acceptOnce w = false /\ workers w = [] /\ wg w = 0)
  \/ (acceptOnce w = true /\ length (workers w) = length lns).
Proof.
  intros R.
  assert (HI : Inv w) by (eapply run_Inv; [apply Listen_Inv | exact R]).
  assert (HS : started w) by (eapply run_started; [apply Listen_started | exact R]).
  destruct (acceptOnce w) eqn:E.
  - right. split; [done|]. rewrite (HS E). by rewrite (run_ls _ _ _ R).
  - left. pose proof (inv_unstarted _ HI E) as Hw.
    split_and!; try done. by rewrite (inv_wg _ HI), Hw.
Qed.

Lemma workers_one_per_listener_witness :
  (acceptOnce served = false /\ workers served = [] /\ wg served = 0)
  \/ (acceptOnce served = true /\ length (workers served) = length pair).
Proof. apply (workers_one_per_listener pair serve served). reflexivity. Defined.

(** X2. On a Listener with at least one underlying listener, every
    [Accept], the first or a later one, returning or parked, leaves the
    workers started: one per listener, never a second set. *)
Theorem Accept_starts_workers lns ops w pick sch :
  lns <> [] ->
  run ops (Listen lns) = Some w ->
  acceptOnce (Accept pick sch w).1 = true
  /\ length (workers (Accept pick sch w).1) = length lns.
Proof.
  intros Hn R.
  assert (Hl : ls w = lns) by apply (run_ls _ _ _ R).
  assert (HS : started w) by (eapply run_started; [apply Listen_started | exact R]).
  assert (Ha : acceptOnce (Accept pick sch w).1 = true).
  { apply Accept_acceptOnce. by rewrite Hl. }
  split; [done|].
  assert (HS' : started (Accept pick sch w).1).
  { apply (Accept_stable started); auto using started_step, started_spawn. }
  rewrite (HS' Ha).
  assert (E : exec (OpAccept pick sch) w = Some (Accept pick sch w).1) by done.
  by rewrite (exec_ls _ _ _ E), Hl.
Qed.

Lemma Accept_starts_workers_witness :
  acceptOnce (Accept false [] served).1 = true
  /\ length (workers (Accept false [] served).1) = length pair.
Proof.
  apply (Accept_starts_workers pair serve served false []);
    [discriminate | reflexivity].
Defined.

(** X3. The WaitGroup counter always equals the number of workers that
    have not left [l.accept]: [Done] is never called more often than [Add]
    allowed, and the counter never exceeds the number of listeners. *)
Theorem wg_counts_running_workers lns ops w :
  run ops (Listen lns) = Some w ->
  wg w = live_count (workers w) /\ wg w <= length lns.
Proof.
  intros R.
  assert (HI : Inv w) by (eapply run_Inv; [apply Listen_Inv | exact R]).
  split; [apply (inv_wg _ HI)|].
  assert (Hl : ls w = lns) by apply (run_ls _ _ _ R).
  rewrite (inv_wg _ HI), <- Hl.
  pose proof (live_count_le (workers w)). pose proof (inv_len _ HI). lia.
Qed.

Lemma wg_counts_running_workers_witness :
  wg backlog = live_count (workers backlog) /\ wg backlog <= length pair.
Proof.
  apply (wg_counts_running_workers pair
           (serve ++ [OpWorkers [(0, true); (0, true); (0, true);
                                 (1, true); (1, true); (1, true)]]) backlog).
  vm_compute. reflexivity.
Defined.
